(** * GPU admission control of the time-series forecast service

    A shallow embedding of
    [cntk-lstm-forecast/service/time_series_forecast_service.py]:
    the three module globals, the four helper functions that mutate
    them, and [ForecastServicer.forecast] as a statement-level
    transition system, so that calls served by several worker threads
    can be interleaved. *)

From stdpp Require Import gmap strings list sorting.
From Stdlib Require Import ZArith Lia.

Open Scope Z_scope.

(** ** Python values, exceptions, messages *)

Inductive pyval : Type :=
  | PNone
  | PStr (s : string)
  | PNum (z : Z).

Global Instance pyval_eq_dec : EqDecision pyval.
Proof. solve_decision. Defined.

(** The exceptions the embedded code can raise: [GPU_QUEUE[0]] on an
    empty list, [list.remove] of an absent element, a missing key of the
    response dictionary, and anything raised by the computation section
    (lines 70-94: request attributes, [Forecast], [multiprocessing]). *)
Inductive exn : Type :=
  | IndexError
  | ValueError
  | KeyError
  | ComputeError.

Global Instance exn_eq_dec : EqDecision exn.
Proof. solve_decision. Defined.

(** The protobuf message [Output] and its all-default instance
    [Output()]. *)
Record Output : Type := mkOutput {
  last_sax_word : pyval;
  forecast_sax_letter : pyval;
  position_in_sax_interval : pyval
}.

Definition Output_default : Output := mkOutput (PStr "") (PStr "") (PNum 0).
Definition Output_busy : Output :=
  mkOutput (PStr "GPU Busy!") (PStr "GPU Busy!") (PNum (-1)).
Definition Output_fail : Output := mkOutput (PStr "Fail") (PStr "Fail") (PNum (-1)).

Inductive StatusCode : Type := INTERNAL.

(** The part of the gRPC [context] the servicer writes: [None] means the
    setter was never called. *)
Record Context : Type := mkContext {
  details : option pyval;
  code : option StatusCode
}.

Definition fresh_context : Context := mkContext None None.
Definition set_details (msg : pyval) (c : Context) : Context :=
  mkContext (Some msg) (code c).
Definition set_code (sc : StatusCode) (c : Context) : Context :=
  mkContext (details c) (Some sc).

(** ** The shared globals (lines 20-22) *)

Record Globals : Type := mkGlobals {
  GPU_DEVICE_BUSY : bool;
  GPU_QUEUE : list Z;
  GPU_QUEUE_ID : Z
}.

Definition initial_globals : Globals := mkGlobals false [] (-1).

(** ** A state-and-exception monad for the helper functions

    A raised exception leaves the globals as they were when it was
    raised. *)

Inductive outcome (A : Type) : Type :=
  | Ret (a : A)
  | Exc (e : exn).
Arguments Ret {A} a.
Arguments Exc {A} e.

Definition M (A : Type) : Type := Globals -> outcome A * Globals.

Definition ret {A} (a : A) : M A := fun g => (Ret a, g).
Definition raise {A} (e : exn) : M A := fun g => (Exc e, g).
Definition bind {A B} (k : A -> M B) (m : M A) : M B :=
  fun g => match m g with
           | (Ret a, g') => k a g'
           | (Exc e, g') => (Exc e, g')
           end.
Definition get : M Globals := fun g => (Ret g, g).
Definition put (g : Globals) : M unit := fun _ => (Ret tt, g).

Global Instance M_ret : MRet M := @ret.
Global Instance M_bind : MBind M := @bind.

(** ** The statements that touch the globals *)

(** [GPU_QUEUE_ID += 1] (line 132). *)
Definition incr_queue_id : M unit :=
  g ← get;
  put (mkGlobals (GPU_DEVICE_BUSY g) (GPU_QUEUE g) (GPU_QUEUE_ID g + 1)).

(** [GPU_QUEUE.append(GPU_QUEUE_ID)] (line 133). *)
Definition append_queue_id : M unit :=
  g ← get;
  put (mkGlobals (GPU_DEVICE_BUSY g) (GPU_QUEUE g ++ [GPU_QUEUE_ID g]) (GPU_QUEUE_ID g)).

(** [return GPU_QUEUE_ID] (line 135). *)
Definition read_queue_id : M Z :=
  g ← get; ret (GPU_QUEUE_ID g).

(** [GPU_DEVICE_BUSY = b] (lines 146 and 153). *)
Definition set_busy (b : bool) : M unit :=
  g ← get;
  put (mkGlobals b (GPU_QUEUE g) (GPU_QUEUE_ID g)).

(** Python's [list.remove]: drops the first occurrence, [None] (that is
    [ValueError]) when there is none. *)
Fixpoint list_remove (x : Z) (l : list Z) : option (list Z) :=
  match l with
  | [] => None
  | y :: l' =>
      if Z.eqb x y then Some l'
      else match list_remove x l' with
           | Some r => Some (y :: r)
           | None => None
           end
  end.

(** [GPU_QUEUE[0]]: [IndexError] on the empty list. *)
Definition queue_head : M Z :=
  g ← get;
  match GPU_QUEUE g with
  | [] => raise IndexError
  | h :: _ => ret h
  end.

(** ** The four helper functions (lines 129-155) *)

Definition get_gpu_queue_id : M Z :=
  incr_queue_id ;;
  append_queue_id ;;
  read_queue_id.

Definition remove_from_queue (gpu_queue_id : Z) : M unit :=
  g ← get;
  match list_remove gpu_queue_id (GPU_QUEUE g) with
  | Some q => put (mkGlobals (GPU_DEVICE_BUSY g) q (GPU_QUEUE_ID g))
  | None => raise ValueError
  end.

Definition acquire_gpu (gpu_queue_id : Z) : M unit :=
  set_busy true.

Definition release_gpu (gpu_queue_id : Z) : M unit :=
  remove_from_queue gpu_queue_id ;;
  set_busy false.

(** ** The isolated computation

    Lines 70-96 are opaque here: for each call the computation section
    either raises, or yields [return_dict.get("response", None)]. *)

Inductive CompOutcome : Type :=
  | CompRaises
  | CompResponse (response : option (gmap string pyval)).

(** [not response]: [None] and the empty dictionary are falsy. *)
Definition falsy (response : option (gmap string pyval)) : bool :=
  match response with
  | None => true
  | Some d => bool_decide (d = ∅)
  end.

(** ["error" in response]. *)
Definition has_error (response : option (gmap string pyval)) : bool :=
  match response with
  | None => false
  | Some d => bool_decide (is_Some (d !! "error"))
  end.

(** [response.get("error", None) if response else None] (line 98). *)
Definition error_msg_of (response : option (gmap string pyval)) : pyval :=
  if falsy response then PNone
  else match response with
       | Some d => default PNone (d !! "error")
       | None => PNone
       end.

(** ** [ForecastServicer.forecast], statement by statement

    A program point names the next statement of the call; local
    variables ([gpu_queue_id], [count], the extracted response) ride
    along.  Statements that touch no global are folded into the step
    before them.  The [acquired] flag of the handler points is ghost: it
    records whether the call had executed [acquire_gpu] when the
    exception was raised. *)

Inductive pc : Type :=
  | PEnqIncr                                  (* line 52 -> 132 *)
  | PEnqAppend                                (* line 133 *)
  | PEnqReturn                                (* line 135, then 55 *)
  | PTest (gpu_queue_id count : Z)            (* line 56 *)
  | PBody (gpu_queue_id count : Z)            (* lines 57-64 *)
  | PAcquire (gpu_queue_id : Z)               (* line 67 -> 146 *)
  | PCompute (gpu_queue_id : Z)               (* lines 70-110 *)
  | PRelRemove (gpu_queue_id : Z) (out : Output)   (* line 113 -> 152 *)
  | PRelFree (gpu_queue_id : Z) (out : Output)     (* line 153, then 114 *)
  | PHandler (gpu_queue_id : Z) (e : exn) (acquired : bool)  (* lines 119-120 *)
  | PHRelRemove (gpu_queue_id : Z) (acquired : bool)         (* line 121 -> 152 *)
  | PHRelFree (gpu_queue_id : Z) (acquired : bool)           (* line 153, then 124 *)
  | PHRemove (gpu_queue_id : Z) (acquired : bool)            (* line 123, then 124 *)
  | PDone (out : Output) (ctx : Context)      (* the call has returned *)
  | PCrash (e : exn).                         (* the exception left [forecast] *)

(** What a step makes observable: the value appended to the queue, and
    an acquisition together with the queue at that moment. *)
Inductive Event : Type :=
  | EvEnqueue (v : Z)
  | EvAcquire (gpu_queue_id : Z) (queue : list Z).

(** The loop test [GPU_DEVICE_BUSY or GPU_QUEUE[0] != gpu_queue_id]. *)
Definition loop_test (gpu_queue_id : Z) : M bool :=
  g ← get;
  if GPU_DEVICE_BUSY g then ret true
  else h ← queue_head; ret (negb (Z.eqb h gpu_queue_id)).

(** The loop body: sleep, the diagnostic every 60 polls (it reads
    [GPU_QUEUE[0]]), the counter, and after 3600 polls an [Output] that
    is built and dropped (line 62 has no [return]). *)
Definition loop_body (gpu_queue_id count : Z) : M Z :=
  (if Z.eqb (count mod 60) 0 then queue_head ;; ret tt else ret tt) ;;
  let count := count + 1 in
  let _ := if Z.ltb (60 * 60) count then Some Output_busy else None in
  ret count.

(** Lines 70-110 for one call. *)
Definition compute_section (c : CompOutcome) (gpu_queue_id : Z) : pc :=
  match c with
  | CompRaises => PHandler gpu_queue_id ComputeError true
  | CompResponse response =>
      if falsy response || has_error response then
        let error_msg := error_msg_of response in
        PDone Output_default (set_code INTERNAL (set_details error_msg fresh_context))
      else
        match response with
        | Some d =>
            match d !! "last_sax_word", d !! "forecast_sax_letter",
                  d !! "position_in_sax_interval" with
            | Some w, Some l, Some p => PRelRemove gpu_queue_id (mkOutput w l p)
            | _, _, _ => PHandler gpu_queue_id KeyError true
            end
        | None => PHandler gpu_queue_id KeyError true
        end
  end.

(** One statement of one call. *)
Definition forecast_step (c : CompOutcome) (p : pc) (g : Globals)
  : pc * option Event * Globals :=
  match p with
  | PEnqIncr =>
      match incr_queue_id g with
      | (_, g') => (PEnqAppend, None, g')
      end
  | PEnqAppend =>
      match append_queue_id g with
      | (_, g') => (PEnqReturn, Some (EvEnqueue (GPU_QUEUE_ID g)), g')
      end
  | PEnqReturn =>
      match read_queue_id g with
      | (Ret id, g') => (PTest id 0, None, g')
      | (Exc e, g') => (PCrash e, None, g')
      end
  | PTest id count =>
      match loop_test id g with
      | (Ret true, g') => (PBody id count, None, g')
      | (Ret false, g') => (PAcquire id, None, g')
      | (Exc e, g') => (PHandler id e false, None, g')
      end
  | PBody id count =>
      match loop_body id count g with
      | (Ret count', g') => (PTest id count', None, g')
      | (Exc e, g') => (PHandler id e false, None, g')
      end
  | PAcquire id =>
      match acquire_gpu id g with
      | (Ret _, g') => (PCompute id, Some (EvAcquire id (GPU_QUEUE g)), g')
      | (Exc e, g') => (PHandler id e false, None, g')
      end
  | PCompute id => (compute_section c id, None, g)
  | PRelRemove id out =>
      match remove_from_queue id g with
      | (Ret _, g') => (PRelFree id out, None, g')
      | (Exc e, g') => (PHandler id e true, None, g')
      end
  | PRelFree id out =>
      match set_busy false g with
      | (_, g') => (PDone out fresh_context, None, g')
      end
  | PHandler id e acq =>
      match queue_head g with
      | (Ret h, g') =>
          if Z.eqb id h then (PHRelRemove id acq, None, g')
          else (PHRemove id acq, None, g')
      | (Exc e', g') => (PCrash e', None, g')
      end
  | PHRelRemove id acq =>
      match remove_from_queue id g with
      | (Ret _, g') => (PHRelFree id acq, None, g')
      | (Exc e, g') => (PCrash e, None, g')
      end
  | PHRelFree id acq =>
      match set_busy false g with
      | (_, g') => (PDone Output_fail fresh_context, None, g')
      end
  | PHRemove id acq =>
      match remove_from_queue id g with
      | (Ret _, g') => (PDone Output_fail fresh_context, None, g')
      | (Exc e, g') => (PCrash e, None, g')
      end
  | PDone out ctx => (PDone out ctx, None, g)
  | PCrash e => (PCrash e, None, g)
  end.

(** A call served with no other call running: [fuel] statements of
    [forecast] from its entry. *)
Fixpoint run_call (fuel : nat) (c : CompOutcome) (p : pc) (g : Globals)
  : pc * Globals :=
  match fuel with
  | O => (p, g)
  | S n =>
      match forecast_step c p g with
      | (p', _, g') => run_call n c p' g'
      end
  end.

Definition forecast (fuel : nat) (c : CompOutcome) (g : Globals) : pc * Globals :=
  run_call fuel c PEnqIncr g.

(** ** Worker threads

    The server hands each call to a worker of a thread pool (line 167);
    a schedule lists which worker executes its next statement. *)

Record Thread : Type := mkThread {
  comp : CompOutcome;
  at_pc : pc
}.

Record System : Type := mkSystem {
  globals : Globals;
  threads : list Thread;
  trace : list (nat * Event)
}.

Definition init_system (calls : list CompOutcome) : System :=
  mkSystem initial_globals (map (fun c => mkThread c PEnqIncr) calls) [].

Definition sys_step (s : System) (i : nat) : System :=
  match threads s !! i with
  | None => s
  | Some th =>
      match forecast_step (comp th) (at_pc th) (globals s) with
      | (p', ev, g') =>
          mkSystem g' (<[i := mkThread (comp th) p']> (threads s))
                   (trace s ++ match ev with Some e => [(i, e)] | None => [] end)
      end
  end.

Definition exec (sched : list nat) (s : System) : System :=
  foldl sys_step s sched.

(** ** Concrete calls used in the examples *)

Definition error_call : CompOutcome :=
  CompResponse (Some (<["error" := PStr "no data"]> ∅)).

Definition good_call : CompOutcome :=
  CompResponse (Some (<["last_sax_word" := PStr "abc"]>
                     (<["forecast_sax_letter" := PStr "d"]>
                     (<["position_in_sax_interval" := PNum 3]> ∅)))).

(** The globals while ticket 0 holds the device. *)
Definition held_by_0 : Globals := mkGlobals true [0] 0.

(** ** The claims about one call and about the helper functions *)

(** A call has ended once it returned or its exception escaped. *)
Definition ended (p : pc) : bool :=
  match p with
  | PDone _ _ | PCrash _ => true
  | _ => false
  end.


(** What the spec asks of a double release at globals [g]. *)
Definition release_twice_ok (gpu_queue_id : Z) (g : Globals) : Prop :=
  exists g1 g2,
    release_gpu gpu_queue_id g = (Ret tt, g1) /\ GPU_DEVICE_BUSY g1 = false /\
    release_gpu gpu_queue_id g1 = (Ret tt, g2) /\ GPU_DEVICE_BUSY g2 = false.


(** The computation reported a failure: no response, an empty one, or
    one with an ["error"] entry (the test of line 97). *)
Definition response_fails (c : CompOutcome) : bool :=
  match c with
  | CompResponse response => falsy response || has_error response
  | CompRaises => false
  end.

(** The message built at lines 114-116 when the computation delivered
    its three fields. *)
Definition success_output (c : CompOutcome) : option Output :=
  match c with
  | CompResponse (Some d) =>
      if falsy (Some d) || has_error (Some d) then None
      else match d !! "last_sax_word", d !! "forecast_sax_letter",
                 d !! "position_in_sax_interval" with
           | Some w, Some l, Some p => Some (mkOutput w l p)
           | _, _, _ => None
           end
  | _ => None
  end.

(** The context after lines 98-101. *)
Definition failure_context (c : CompOutcome) : Context :=
  match c with
  | CompResponse response =>
      set_code INTERNAL (set_details (error_msg_of response) fresh_context)
  | CompRaises => fresh_context
  end.






(** ** Interleaved calls: what the claims speak about *)

(** Inside [get_gpu_queue_id]: line 132 is done, line 135 is not. *)
Definition in_enqueue (p : pc) : bool :=
  match p with
  | PEnqAppend | PEnqReturn => true
  | _ => false
  end.

(** Past the wait loop and not yet returned. *)
Definition in_critical (p : pc) : bool :=
  match p with
  | PAcquire _ | PCompute _ | PRelRemove _ _ | PRelFree _ _
  | PHandler _ _ _ | PHRelRemove _ _ | PHRelFree _ _ | PHRemove _ _ => true
  | _ => false
  end.

(** The call holds the resource: it has executed [acquire_gpu] and has
    neither cleared the flag nor returned. *)
Definition holding (p : pc) : bool :=
  match p with
  | PCompute _ | PRelRemove _ _ | PRelFree _ _ => true
  | PHandler _ _ acq | PHRelRemove _ acq | PHRelFree _ acq | PHRemove _ acq => acq
  | _ => false
  end.

(** The ticket of a holder whose release has not yet removed it. *)
Definition unremoved_ticket (p : pc) : option Z :=
  match p with
  | PCompute id | PRelRemove id _ => Some id
  | PHandler id _ true | PHRelRemove id true | PHRemove id true => Some id
  | _ => None
  end.

(** The call returned through the response-failure branch (lines
    97-102), the only place that sets a status. *)
Definition leaked (p : pc) : bool :=
  match p with
  | PDone _ ctx => match code ctx with Some INTERNAL => true | None => false end
  | _ => false
  end.

(** The invariant of the spec's data model: the flag is set exactly
    when some call holds the resource, at most one call holds it, and
    the holder's ticket heads the queue until release removes it. *)
Definition lock_invariant (s : System) : Prop :=
  (GPU_DEVICE_BUSY (globals s) = true <->
   exists i th, threads s !! i = Some th /\ holding (at_pc th) = true) /\
  (forall i j thi thj,
     threads s !! i = Some thi -> threads s !! j = Some thj ->
     holding (at_pc thi) = true -> holding (at_pc thj) = true -> i = j) /\
  (forall i th id,
     threads s !! i = Some th -> unremoved_ticket (at_pc th) = Some id ->
     head (GPU_QUEUE (globals s)) = Some id).

(** Position of the first entry of a trace that satisfies [P]. *)
Fixpoint find_pos (P : nat * Event -> bool) (tr : list (nat * Event)) : option nat :=
  match tr with
  | [] => None
  | x :: r => if P x then Some O else S <$> find_pos P r
  end.

Definition is_enqueue_of (i : nat) (x : nat * Event) : bool :=
  match x with
  | (j, EvEnqueue _) => Nat.eqb i j
  | _ => false
  end.

Definition is_acquire_of (i : nat) (x : nat * Event) : bool :=
  match x with
  | (j, EvAcquire _ _) => Nat.eqb i j
  | _ => false
  end.

(** Strict FIFO on a trace: calls acquire in the order in which they
    were enqueued, and at an acquisition no queued ticket is earlier
    than the acquiring one. *)
Definition fifo (tr : list (nat * Event)) : Prop :=
  (forall i j a b c d,
     find_pos (is_enqueue_of i) tr = Some a ->
     find_pos (is_enqueue_of j) tr = Some b ->
     (a < b)%nat ->
     find_pos (is_acquire_of i) tr = Some c ->
     find_pos (is_acquire_of j) tr = Some d ->
     (c < d)%nat) /\
  (forall i id q, (i, EvAcquire id q) ∈ tr -> Forall (fun t => id <= t) q).

(** Ticket issue is serialised along a schedule when at no moment two
    calls are inside [get_gpu_queue_id]. *)
Definition enq_serial (s : System) : bool :=
  (length (filter (fun th => in_enqueue (at_pc th) = true) (threads s)) <=? 1)%nat.

Fixpoint serialised (sched : list nat) (s : System) : bool :=
  match sched with
  | [] => true
  | i :: rest => enq_serial (sys_step s i) && serialised rest (sys_step s i)
  end.

(** Two calls, [get_gpu_queue_id] interleaved statement by statement:
    both obtain ticket 1 and both pass the wait loop. *)
Definition racy_two_holders : list nat := [0; 1; 0; 1; 0; 1; 0; 1; 0; 1]%nat.

(** The same start, then call 1 runs to its end before call 0 goes
    on. *)
Definition racy_overtake : list nat :=
  [0; 1; 0; 1; 0; 1; 1; 1; 1; 1; 1; 0; 0; 0]%nat.

(** A serialised schedule of two calls used in the examples. *)
Definition fair_schedule : list nat :=
  [0; 0; 0; 1; 1; 1; 0; 1; 0; 1; 0; 0; 0; 1; 1; 1; 1; 1]%nat.

(** ** The invariant of serialised executions *)

Definition enqueued_by (i : nat) (v : Z) (tr : list (nat * Event)) : Prop :=
  (i, EvEnqueue v) ∈ tr.

Definition no_enqueue_by (i : nat) (tr : list (nat * Event)) : Prop :=
  forall v, (i, EvEnqueue v) ∉ tr.

Definition no_acquire_by (i : nat) (tr : list (nat * Event)) : Prop :=
  forall id q, (i, EvAcquire id q) ∉ tr.

(** Values enqueued later are larger; likewise acquired tickets. *)
Definition enq_mono (tr : list (nat * Event)) : Prop :=
  forall (a b i j : nat) v w,
    tr !! a = Some (i, EvEnqueue v) -> tr !! b = Some (j, EvEnqueue w) ->
    (a < b)%nat -> v < w.

Definition acq_mono (tr : list (nat * Event)) : Prop :=
  forall (a b i j : nat) v w qv qw,
    tr !! a = Some (i, EvAcquire v qv) -> tr !! b = Some (j, EvAcquire w qw) ->
    (a < b)%nat -> v < w.

(** What holds of worker [i] at program point [p]. *)
Definition thread_ok (s : System) (i : nat) (c : CompOutcome) (p : pc) : Prop :=
  let g := globals s in
  let tr := trace s in
  match p with
  | PEnqIncr => no_enqueue_by i tr /\ no_acquire_by i tr
  | PEnqAppend =>
      Forall (fun t => t < GPU_QUEUE_ID g) (GPU_QUEUE g) /\
      (forall j v, (j, EvEnqueue v) ∈ tr -> v < GPU_QUEUE_ID g) /\
      no_enqueue_by i tr /\ no_acquire_by i tr
  | PEnqReturn =>
      GPU_QUEUE_ID g ∈ GPU_QUEUE g /\ enqueued_by i (GPU_QUEUE_ID g) tr /\
      no_acquire_by i tr
  | PTest id _ | PBody id _ =>
      id ∈ GPU_QUEUE g /\ enqueued_by i id tr /\ no_acquire_by i tr
  | PAcquire id =>
      head (GPU_QUEUE g) = Some id /\ GPU_DEVICE_BUSY g = false /\
      enqueued_by i id tr /\ no_acquire_by i tr
  | PCompute id | PRelRemove id _ =>
      head (GPU_QUEUE g) = Some id /\ enqueued_by i id tr
  | PHandler id _ acq | PHRelRemove id acq =>
      head (GPU_QUEUE g) = Some id /\ enqueued_by i id tr /\ acq = true
  | PHRelFree _ acq => acq = true
  | PRelFree _ _ => True
  | PDone _ ctx => leaked p = true -> response_fails c = true
  | PHRemove _ _ | PCrash _ => False
  end.

Record Inv (s : System) : Prop := mkInv {
  inv_sorted : StronglySorted Z.lt (GPU_QUEUE (globals s));
  inv_bound : Forall (fun t => t <= GPU_QUEUE_ID (globals s)) (GPU_QUEUE (globals s));
  inv_enq_mono : enq_mono (trace s);
  inv_enq_bound : forall i v, (i, EvEnqueue v) ∈ trace s -> v <= GPU_QUEUE_ID (globals s);
  inv_enq_once : forall i v w,
      (i, EvEnqueue v) ∈ trace s -> (i, EvEnqueue w) ∈ trace s -> v = w;
  inv_acq_mono : acq_mono (trace s);
  inv_acq_head : forall i a qa h,
      (i, EvAcquire a qa) ∈ trace s -> head (GPU_QUEUE (globals s)) = Some h -> a <= h;
  inv_acq_snap : forall i a qa,
      (i, EvAcquire a qa) ∈ trace s ->
      Forall (fun t => a <= t) qa /\ (i, EvEnqueue a) ∈ trace s;
  inv_mutex : forall i j thi thj,
      threads s !! i = Some thi -> threads s !! j = Some thj ->
      in_critical (at_pc thi) = true -> in_critical (at_pc thj) = true -> i = j;
  inv_busy : GPU_DEVICE_BUSY (globals s) = true <->
      exists i th, threads s !! i = Some th /\
                   (holding (at_pc th) = true \/ leaked (at_pc th) = true);
  inv_leak : forall i j thi thj,
      threads s !! i = Some thi -> threads s !! j = Some thj ->
      leaked (at_pc thi) = true -> in_critical (at_pc thj) = true -> False;
  inv_thread : forall i th,
      threads s !! i = Some th -> thread_ok s i (comp th) (at_pc th)
}.


(** The program points before the end of the wait loop; from line 135
    on the queue holds at least the call's own entry. *)
Definition still_waiting (p : pc) (g : Globals) : Prop :=
  match p with
  | PEnqIncr | PEnqAppend => True
  | PEnqReturn | PTest _ _ | PBody _ _ => GPU_QUEUE g <> []
  | _ => False
  end.

(** * Properties *)

(** *** Basic facts *)

Lemma list_remove_head (x : Z) (l : list Z) : list_remove x (x :: l) = Some l.
Proof. simpl. by rewrite Z.eqb_refl. Qed.

Lemma list_remove_absent (x : Z) (l : list Z) : x ∉ l -> list_remove x l = None.
Proof.
  induction l as [|y l IH]; intros Hx; [done|].
  simpl. destruct (Z.eqb_spec x y) as [->|Hne].
  - exfalso. apply Hx. left.
  - rewrite IH; [done|]. intros Hin. apply Hx. by right.
Qed.

Lemma list_remove_present (x : Z) (l : list Z) :
  x ∈ l -> exists r, list_remove x l = Some r.
Proof.
  induction l as [|y l IH]; intros Hx.
  - by apply elem_of_nil in Hx.
  - simpl. destruct (Z.eqb_spec x y) as [->|Hne]; [eauto|].
    apply elem_of_cons in Hx as [?|Hx]; [done|].
    destruct (IH Hx) as [r ->]. eauto.
Qed.

Lemma list_remove_elem_of (x y : Z) (l r : list Z) :
  list_remove x l = Some r -> y ∈ r -> y ∈ l.
Proof.
  revert r. induction l as [|z l IH]; intros r; simpl; [done|].
  destruct (Z.eqb_spec x z) as [->|Hne].
  - intros [= ->] ?. by right.
  - destruct (list_remove x l) as [r'|] eqn:E; [|done].
    intros [= <-] Hy. apply elem_of_cons in Hy as [->|Hy]; [left|right; eauto].
Qed.

Lemma list_remove_NoDup (x : Z) (l r : list Z) :
  NoDup l -> list_remove x l = Some r -> (x ∉ r) /\ NoDup r.
Proof.
  revert r. induction l as [|z l IH]; intros r Hnd; simpl; [done|].
  apply NoDup_cons in Hnd as [Hz Hnd].
  destruct (Z.eqb_spec x z) as [->|Hne].
  - intros [= ->]. done.
  - destruct (list_remove x l) as [r'|] eqn:E; [|done].
    intros [= <-]. destruct (IH r' Hnd eq_refl) as [Hx Hr]. split.
    + intros Hin. apply elem_of_cons in Hin as [?|?]; done.
    + apply NoDup_cons. split; [|done].
      intros Hin. apply Hz. eapply list_remove_elem_of; eauto.
Qed.

Lemma get_gpu_queue_id_eq (g : Globals) :
  get_gpu_queue_id g =
  (Ret (GPU_QUEUE_ID g + 1),
   mkGlobals (GPU_DEVICE_BUSY g) (GPU_QUEUE g ++ [GPU_QUEUE_ID g + 1]) (GPU_QUEUE_ID g + 1)).
Proof. reflexivity. Qed.



(** *** One call on its own *)

Lemma compute_section_cases (c : CompOutcome) (id : Z) :
  (response_fails c = true /\
   compute_section c id = PDone Output_default (failure_context c)) \/
  (response_fails c = false /\ success_output c = None /\
   exists e, (e = ComputeError \/ e = KeyError) /\
             compute_section c id = PHandler id e true) \/
  (exists out, response_fails c = false /\ success_output c = Some out /\
               compute_section c id = PRelRemove id out).
Proof.
  destruct c as [|[d|]].
  - right; left. split; [done|]. split; [done|].
    exists ComputeError. split; [by left|done].
  - unfold response_fails, success_output, compute_section, failure_context.
    destruct (falsy (Some d) || has_error (Some d)) eqn:E; [left; done|].
    right.
    destruct (d !! "last_sax_word") as [w|];
      [destruct (d !! "forecast_sax_letter") as [l|];
       [destruct (d !! "position_in_sax_interval") as [p|]|]|].
    + right. exists (mkOutput w l p). done.
    + left. split; [done|]. split; [done|]. exists KeyError. split; [by right|done].
    + left. split; [done|]. split; [done|]. exists KeyError. split; [by right|done].
    + left. split; [done|]. split; [done|]. exists KeyError. split; [by right|done].
  - left. done.
Qed.





Lemma run_call_app (a b : nat) (c : CompOutcome) (p : pc) (g : Globals) :
  run_call (a + b) c p g =
  run_call b c (run_call a c p g).1 (run_call a c p g).2.
Proof.
  revert p g. induction a as [|a IH]; intros p g; [done|].
  simpl. destruct (forecast_step c p g) as [[p' ev] g']. apply IH.
Qed.

Lemma run_call_done (n : nat) (c : CompOutcome) (out : Output) (ctx : Context)
    (g : Globals) :
  run_call n c (PDone out ctx) g = (PDone out ctx, g).
Proof. induction n as [|n IH]; [done|]. simpl. apply IH. Qed.

Lemma step_test_busy (c : CompOutcome) (id count : Z) (g : Globals) :
  GPU_DEVICE_BUSY g = true ->
  forecast_step c (PTest id count) g = (PBody id count, None, g).
Proof.
  intros Hb. simpl. unfold loop_test.
  cbv [mbind M_bind bind get mret M_ret ret raise queue_head].
  by rewrite Hb.
Qed.

Lemma step_body (c : CompOutcome) (id count : Z) (g : Globals) :
  GPU_QUEUE g <> [] ->
  forecast_step c (PBody id count) g = (PTest id (count + 1), None, g).
Proof.
  intros Hq. simpl. unfold loop_body.
  cbv [mbind M_bind bind get mret M_ret ret raise queue_head].
  destruct (Z.eqb (count mod 60) 0); [|done].
  destruct (GPU_QUEUE g); done.
Qed.

(** While the flag is set a poll is two statements and brings the call
    back to the loop test, whatever the counter. *)
Lemma poll_while_busy (c : CompOutcome) (id count : Z) (g : Globals) :
  GPU_DEVICE_BUSY g = true -> GPU_QUEUE g <> [] ->
  run_call 2 c (PTest id count) g = (PTest id (count + 1), g).
Proof.
  intros Hb Hq. cbn [run_call].
  by rewrite step_test_busy, step_body.
Qed.

Lemma polls_while_busy (c : CompOutcome) (n : nat) (id count : Z) (g : Globals) :
  GPU_DEVICE_BUSY g = true -> GPU_QUEUE g <> [] ->
  run_call (2 * n) c (PTest id count) g = (PTest id (count + Z.of_nat n), g).
Proof.
  intros Hb Hq. revert count. induction n as [|n IH]; intros count.
  - simpl. by rewrite Z.add_0_r.
  - replace (2 * S n)%nat with (2 + 2 * n)%nat by lia.
    rewrite run_call_app, poll_while_busy by done. simpl fst; simpl snd.
    rewrite IH. do 2 f_equal. lia.
Qed.

(** *** The claims *)

(** C1 (the code departs from it). A call whose computation answers with
    an ["error"] entry returns the empty message and status [INTERNAL]
    after six statements, and from then on its ticket [0] is still in
    the queue and the busy flag is still set: the return of line 102
    runs no cleanup. *)
Theorem forecast_error_response_keeps_lock (n : nat) :
  forecast (6 + n) error_call initial_globals =
  (PDone Output_default (mkContext (Some (PStr "no data")) (Some INTERNAL)),
   mkGlobals true [0] 0).
Proof.
  unfold forecast. rewrite run_call_app.
  assert (run_call 6 error_call PEnqIncr initial_globals =
          (PDone Output_default (mkContext (Some (PStr "no data")) (Some INTERNAL)),
           mkGlobals true [0] 0)) as -> by (vm_compute; reflexivity).
  apply run_call_done.
Qed.

(** C2 (the code departs from it). A call that arrives while ticket 0
    holds the device is, after its three enqueue statements and any
    number [n] of polls, back at the loop test with counter [n] and has
    not returned: for [n] above 3600 the ["GPU Busy!"] message of
    line 62 is built and dropped, nothing is returned. *)
Theorem forecast_never_times_out (n : nat) :
  forecast (3 + 2 * n) good_call held_by_0 =
  (PTest 1 (Z.of_nat n), mkGlobals true [0; 1] 1).
Proof.
  unfold forecast. rewrite run_call_app.
  assert (run_call 3 good_call PEnqIncr held_by_0 =
          (PTest 1 0, mkGlobals true [0; 1] 1)) as -> by (vm_compute; reflexivity).
  simpl fst; simpl snd. rewrite polls_while_busy by done.
  reflexivity.
Qed.

(** C3, as stated, fails for ticket 0 holding the device: the second
    release raises. *)
Lemma release_twice_raises : ~ release_twice_ok 0 held_by_0.
Proof.
  intros (g1 & g2 & H1 & _ & H2 & _).
  vm_compute in H1. injection H1 as <-.
  vm_compute in H2. discriminate H2.
Qed.

(** C3 (amended). Releasing a ticket that is in the queue (once) removes
    it and leaves the flag free without error; releasing it again
    straight away raises [ValueError] from [list.remove] and changes
    nothing, so the flag is still free. *)
Theorem release_gpu_twice (id : Z) (g : Globals) :
  id ∈ GPU_QUEUE g -> NoDup (GPU_QUEUE g) ->
  exists q,
    list_remove id (GPU_QUEUE g) = Some q /\
    release_gpu id g = (Ret tt, mkGlobals false q (GPU_QUEUE_ID g)) /\
    release_gpu id (mkGlobals false q (GPU_QUEUE_ID g)) =
      (Exc ValueError, mkGlobals false q (GPU_QUEUE_ID g)).
Proof.
  intros Hin Hnd. destruct (list_remove_present _ _ Hin) as [q Hq].
  exists q. split; [done|].
  destruct (list_remove_NoDup _ _ _ Hnd Hq) as [Hout _].
  unfold release_gpu, remove_from_queue, set_busy.
  cbv [mbind M_bind bind get put mret M_ret ret raise]. simpl.
  rewrite Hq, (list_remove_absent _ _ Hout). done.
Qed.

Lemma release_gpu_twice_witness :
  exists q,
    list_remove 0 (GPU_QUEUE held_by_0) = Some q /\
    release_gpu 0 held_by_0 = (Ret tt, mkGlobals false q (GPU_QUEUE_ID held_by_0)) /\
    release_gpu 0 (mkGlobals false q (GPU_QUEUE_ID held_by_0)) =
      (Exc ValueError, mkGlobals false q (GPU_QUEUE_ID held_by_0)).
Proof.
  apply (release_gpu_twice 0 held_by_0).
  - simpl. left.
  - simpl. apply NoDup_singleton.
Defined.










(** *** Interleaved calls *)

(** C4, as stated, fails when two workers interleave inside
    [get_gpu_queue_id]: call 0 appends first, both calls read ticket 1,
    and call 1 acquires before call 0. *)
Lemma racy_tickets_break_fifo :
  ~ fifo (trace (exec racy_overtake (init_system [good_call; good_call]))).
Proof.
  intros [Hord _].
  specialize (Hord 0%nat 1%nat 0%nat 1%nat 3%nat 2%nat eq_refl eq_refl).
  assert (3 < 2)%nat; [|lia].
  apply Hord; [lia| |]; reflexivity.
Qed.

(** C7, as stated, fails on the same race: both calls hold the resource
    at once. *)
Lemma racy_tickets_two_holders :
  ~ lock_invariant (exec racy_two_holders (init_system [good_call; good_call])).
Proof.
  intros (_ & Hone & _).
  specialize (Hone 0%nat 1%nat (mkThread good_call (PCompute 1))
                (mkThread good_call (PCompute 1)) eq_refl eq_refl eq_refl eq_refl).
  discriminate Hone.
Qed.

Lemma lookup_upd (ts : list Thread) (i j : nat) (x y : Thread) :
  <[i := x]> ts !! j = Some y ->
  (j = i /\ y = x) \/ (j <> i /\ ts !! j = Some y).
Proof.
  intros H. apply list_lookup_insert_Some in H as [(-> & -> & _)|[Hne H]].
  - by left.
  - right. split; [congruence|done].
Qed.

Lemma enq_unique (tr : list (nat * Event)) (i j : nat) (v : Z) :
  enq_mono tr -> (i, EvEnqueue v) ∈ tr -> (j, EvEnqueue v) ∈ tr -> i = j.
Proof.
  intros Hm Hi Hj.
  apply list_elem_of_lookup in Hi as [a Ha].
  apply list_elem_of_lookup in Hj as [b Hb].
  destruct (lt_eq_lt_dec a b) as [[Hlt| ->]|Hlt].
  - pose proof (Hm _ _ _ _ _ _ Ha Hb Hlt). lia.
  - congruence.
  - pose proof (Hm _ _ _ _ _ _ Hb Ha Hlt). lia.
Qed.

Lemma holding_critical (p : pc) : holding p = true -> in_critical p = true.
Proof. by destruct p. Qed.

Lemma leaked_not_critical (p : pc) : leaked p = true -> in_critical p = false.
Proof. by destruct p. Qed.

(** A statement that changes neither the globals nor the trace. *)
Lemma inv_silent (s : System) (i : nat) (c : CompOutcome) (p p' : pc) :
  Inv s ->
  threads s !! i = Some (mkThread c p) ->
  thread_ok s i c p' ->
  holding p' || leaked p' = holding p || leaked p ->
  (in_critical p' = true ->
   in_critical p = true \/
   forall j thj, j <> i -> threads s !! j = Some thj ->
                 in_critical (at_pc thj) = false /\ leaked (at_pc thj) = false) ->
  (leaked p' = true -> in_critical p = true) ->
  Inv (mkSystem (globals s) (<[i := mkThread c p']> (threads s)) (trace s)).
Proof.
  intros HI Hi Hok Hhold Hcrit Hleak.
  destruct HI as [Hs Hb Hem Heb Heo Ham Hah Has Hmx Hbusy Hlk Hth].
  split; simpl; try done.
  - (* mutex *)
    intros a b tha thb Ha Hb' Hca Hcb.
    apply lookup_upd in Ha as [[-> ->]|[Hna Ha]];
      apply lookup_upd in Hb' as [[-> ->]|[Hnb Hb']]; simpl in *.
    + done.
    + destruct (Hcrit Hca) as [Hp|Hno].
      * eapply (Hmx i b); eauto.
      * destruct (Hno b thb Hnb Hb'). congruence.
    + destruct (Hcrit Hcb) as [Hp|Hno].
      * eapply (Hmx a i); eauto.
      * destruct (Hno a tha Hna Ha). congruence.
    + eauto.
  - (* busy *)
    rewrite Hbusy. split; intros (j & th & Hj & Hh).
    + destruct (decide (j = i)) as [->|Hne].
      * exists i, (mkThread c p'). split.
        -- apply list_lookup_insert_eq. by eapply lookup_lt_Some.
        -- rewrite Hi in Hj. injection Hj as <-. simpl in *.
           apply orb_true_iff. rewrite Hhold. apply orb_true_iff. done.
      * exists j, th. split; [|done]. by rewrite list_lookup_insert_ne.
    + apply lookup_upd in Hj as [[-> ->]|[Hne Hj]]; simpl in *.
      * exists i, (mkThread c p). split; [done|]. simpl.
        apply orb_true_iff. rewrite <- Hhold. apply orb_true_iff. done.
      * eauto.
  - (* leak *)
    intros a b tha thb Ha Hb' Hla Hcb.
    apply lookup_upd in Ha as [[-> ->]|[Hna Ha]];
      apply lookup_upd in Hb' as [[-> ->]|[Hnb Hb']]; simpl in *.
    + apply leaked_not_critical in Hla. congruence.
    + apply Hnb. symmetry. eapply (Hmx i b); eauto.
    + destruct (Hcrit Hcb) as [Hp|Hno].
      * eapply (Hlk a i); eauto.
      * destruct (Hno a tha Hna Ha). congruence.
    + eauto.
  - (* threads *)
    intros j th Hj.
    apply lookup_upd in Hj as [[-> ->]|[Hne Hj]]; simpl.
    + exact Hok.
    + apply (Hth j th Hj).
Qed.

(** Mutual exclusion and the blocking effect of a leak survive any
    statement that does not let a second call into the critical
    section. *)
Lemma mutex_leak_update (s : System) (i : nat) (c : CompOutcome) (p p' : pc) :
  Inv s ->
  threads s !! i = Some (mkThread c p) ->
  (in_critical p' = true ->
   in_critical p = true \/
   forall j thj, j <> i -> threads s !! j = Some thj ->
                 in_critical (at_pc thj) = false /\ leaked (at_pc thj) = false) ->
  (leaked p' = true -> in_critical p = true) ->
  let ts' := <[i := mkThread c p']> (threads s) in
  (forall a b tha thb,
     ts' !! a = Some tha -> ts' !! b = Some thb ->
     in_critical (at_pc tha) = true -> in_critical (at_pc thb) = true -> a = b) /\
  (forall a b tha thb,
     ts' !! a = Some tha -> ts' !! b = Some thb ->
     leaked (at_pc tha) = true -> in_critical (at_pc thb) = true -> False).
Proof.
  intros HI Hi Hcrit Hleak ts'.
  pose proof (inv_mutex s HI) as Hmx. pose proof (inv_leak s HI) as Hlk.
  split.
  - intros a b tha thb Ha Hb' Hca Hcb.
    apply lookup_upd in Ha as [[-> ->]|[Hna Ha]];
      apply lookup_upd in Hb' as [[-> ->]|[Hnb Hb']]; simpl in *.
    + done.
    + destruct (Hcrit Hca) as [Hp|Hno].
      * eapply (Hmx i b); eauto.
      * destruct (Hno b thb Hnb Hb'). congruence.
    + destruct (Hcrit Hcb) as [Hp|Hno].
      * eapply (Hmx a i); eauto.
      * destruct (Hno a tha Hna Ha). congruence.
    + eauto.
  - intros a b tha thb Ha Hb' Hla Hcb.
    apply lookup_upd in Ha as [[-> ->]|[Hna Ha]];
      apply lookup_upd in Hb' as [[-> ->]|[Hnb Hb']]; simpl in *.
    + apply leaked_not_critical in Hla. congruence.
    + apply Hnb. symmetry. eapply (Hmx i b); eauto.
    + destruct (Hcrit Hcb) as [Hp|Hno].
      * eapply (Hlk a i); eauto.
      * destruct (Hno a tha Hna Ha). congruence.
    + eauto.
Qed.

(** The flag-to-holder correspondence survives a statement that leaves
    the flag alone and does not change whether the call counts as
    holder or leaker. *)
Lemma busy_update (s : System) (i : nat) (c : CompOutcome) (p p' : pc) :
  Inv s ->
  threads s !! i = Some (mkThread c p) ->
  holding p' || leaked p' = holding p || leaked p ->
  GPU_DEVICE_BUSY (globals s) = true <->
  exists j th, <[i := mkThread c p']> (threads s) !! j = Some th /\
               (holding (at_pc th) = true \/ leaked (at_pc th) = true).
Proof.
  intros HI Hi Hhold. rewrite (inv_busy s HI).
  split; intros (j & th & Hj & Hh).
  - destruct (decide (j = i)) as [->|Hne].
    + exists i, (mkThread c p'). split.
      * apply list_lookup_insert_eq. by eapply lookup_lt_Some.
      * rewrite Hi in Hj. injection Hj as <-. simpl in *.
        apply orb_true_iff. rewrite Hhold. apply orb_true_iff. done.
    + exists j, th. split; [|done]. by rewrite list_lookup_insert_ne.
  - apply lookup_upd in Hj as [[-> ->]|[Hne Hj]]; simpl in *.
    + exists i, (mkThread c p). split; [done|]. simpl.
      apply orb_true_iff. rewrite <- Hhold. apply orb_true_iff. done.
    + eauto.
Qed.

Lemma serial_other (ts : list Thread) (i j : nat) (thi thj : Thread) :
  (length (filter (fun th => in_enqueue (at_pc th) = true) ts) <=? 1)%nat = true ->
  ts !! i = Some thi -> ts !! j = Some thj ->
  in_enqueue (at_pc thi) = true -> in_enqueue (at_pc thj) = true -> i = j.
Proof.
  intros Hlen Hi Hj Hpi Hpj. apply Nat.leb_le in Hlen.
  assert (forall a b tha thb, (a < b)%nat ->
            ts !! a = Some tha -> ts !! b = Some thb ->
            in_enqueue (at_pc tha) = true -> in_enqueue (at_pc thb) = true -> False)
    as Hlt.
  { intros a b tha thb Hab Ha Hb Hpa Hpb.
    rewrite <- (take_drop_middle ts a tha Ha) in Hlen, Hb.
    rewrite filter_app, filter_cons_True, length_app in Hlen by done.
    simpl in Hlen.
    rewrite lookup_app_r in Hb by (rewrite length_take; lia).
    rewrite length_take in Hb.
    assert (length ts > a)%nat by (by eapply lookup_lt_Some).
    replace (b - a `min` length ts)%nat with (S (b - S a)) in Hb by lia.
    simpl in Hb.
    assert (thb ∈ filter (fun th => in_enqueue (at_pc th) = true) (drop (S a) ts)) as Hin.
    { apply list_elem_of_filter. split; [done|]. eapply list_elem_of_lookup_2; eauto. }
    destruct (filter _ (drop (S a) ts)); [by apply elem_of_nil in Hin|].
    simpl in Hlen. lia. }
  destruct (lt_eq_lt_dec i j) as [[H|H]|H]; [|done|]; exfalso; eauto.
Qed.

(** Line 132, with no other call inside [get_gpu_queue_id]. *)
Lemma inv_incr (s : System) (i : nat) (c : CompOutcome) :
  Inv s ->
  threads s !! i = Some (mkThread c PEnqIncr) ->
  (forall j th, j <> i -> threads s !! j = Some th -> in_enqueue (at_pc th) = false) ->
  Inv (mkSystem (mkGlobals (GPU_DEVICE_BUSY (globals s)) (GPU_QUEUE (globals s))
                           (GPU_QUEUE_ID (globals s) + 1))
                (<[i := mkThread c PEnqAppend]> (threads s)) (trace s)).
Proof.
  intros HI Hi Hser.
  destruct (mutex_leak_update s i c PEnqIncr PEnqAppend HI Hi) as [Hmx' Hlk']; [done..|].
  pose proof (busy_update s i c PEnqIncr PEnqAppend HI Hi eq_refl) as Hbusy'.
  pose proof (inv_thread s HI i _ Hi) as Hme. simpl in Hme.
  destruct HI as [Hs Hb Hem Heb Heo Ham Hah Has Hmx Hbusy Hlk Hth].
  split; simpl; try done.
  - eapply Forall_impl; [exact Hb|]. simpl. intros; lia.
  - intros j v Hv. specialize (Heb j v Hv). lia.
  - intros j th Hj.
    apply lookup_upd in Hj as [[-> ->]|[Hne Hj]]; simpl.
    + split; [|split; [|done]].
      * eapply Forall_impl; [exact Hb|]. simpl. intros; lia.
      * intros j v Hv. specialize (Heb j v Hv). lia.
    + specialize (Hth j th Hj). specialize (Hser j th Hne Hj).
      destruct (at_pc th); simpl in *; done.
Qed.

Lemma elem_of_snoc_enq (tr : list (nat * Event)) (i j : nat) (v w : Z) :
  (j, EvEnqueue w) ∈ tr ++ [(i, EvEnqueue v)] <->
  (j, EvEnqueue w) ∈ tr \/ (j = i /\ w = v).
Proof.
  rewrite elem_of_app, list_elem_of_singleton. split; intros [H|H]; eauto.
  - injection H as -> ->. by right.
  - destruct H as [-> ->]. by right.
Qed.

(** Line 133, with no other call inside [get_gpu_queue_id]. *)
Lemma inv_append (s : System) (i : nat) (c : CompOutcome) :
  Inv s ->
  threads s !! i = Some (mkThread c PEnqAppend) ->
  (forall j th, j <> i -> threads s !! j = Some th -> in_enqueue (at_pc th) = false) ->
  Inv (mkSystem (mkGlobals (GPU_DEVICE_BUSY (globals s))
                           (GPU_QUEUE (globals s) ++ [GPU_QUEUE_ID (globals s)])
                           (GPU_QUEUE_ID (globals s)))
                (<[i := mkThread c PEnqReturn]> (threads s))
                (trace s ++ [(i, EvEnqueue (GPU_QUEUE_ID (globals s)))])).
Proof.
  intros HI Hi Hser.
  destruct (mutex_leak_update s i c PEnqAppend PEnqReturn HI Hi) as [Hmx' Hlk']; [done..|].
  pose proof (busy_update s i c PEnqAppend PEnqReturn HI Hi eq_refl) as Hbusy'.
  pose proof (inv_thread s HI i _ Hi) as (Hq & Hvals & Hnoenq & Hnoacq). simpl in *.
  destruct HI as [Hs Hb Hem Heb Heo Ham Hah Has Hmx Hbusy Hlk Hth].
  split; simpl; try done.
  - apply StronglySorted_app_2; [|done|repeat constructor].
    intros x1 x2 H1 H2. apply list_elem_of_singleton in H2 as ->.
    rewrite Forall_forall in Hq. by apply Hq.
  - apply Forall_app. split; [done|]. repeat constructor. lia.
  - intros a b j k v w Ha Hb' Hab.
    apply lookup_app_Some in Hb' as [Hb'|[Hlen Hb']].
    + apply lookup_app_Some in Ha as [Ha|[Hlen' _]].
      * eapply Hem; eauto.
      * apply lookup_lt_Some in Hb'. lia.
    + apply list_lookup_singleton_Some in Hb' as [Hb0 [= <- <-]].
      apply lookup_app_Some in Ha as [Ha|[Hlen' Ha]]; [|lia].
      eapply Hvals. eapply list_elem_of_lookup_2; eauto.
  - intros j v Hv. apply elem_of_snoc_enq in Hv as [Hv|[-> ->]]; [eauto|lia].
  - intros j v w Hv Hw.
    apply elem_of_snoc_enq in Hv as [Hv|[-> ->]];
      apply elem_of_snoc_enq in Hw as [Hw|[? ->]]; subst.
    + eauto.
    + by destruct (Hnoenq v).
    + by destruct (Hnoenq w).
    + done.
  - intros a b j k v w qv qw Ha Hb' Hab.
    apply lookup_app_Some in Hb' as [Hb'|[Hlen Hb']];
      [|by apply list_lookup_singleton_Some in Hb' as [_ ?]].
    apply lookup_app_Some in Ha as [Ha|[Hlen' Ha]];
      [|by apply list_lookup_singleton_Some in Ha as [_ ?]].
    eapply Ham; eauto.
  - intros j a qa h Ha Hh.
    apply elem_of_app in Ha as [Ha|Ha];
      [|by apply list_elem_of_singleton in Ha].
    apply head_app_Some in Hh as [Hh|[_ Hh]]; [eauto|].
    injection Hh as <-. destruct (Has j a qa Ha) as [_ He].
    specialize (Heb j a He). lia.
  - intros j a qa Ha.
    apply elem_of_app in Ha as [Ha|Ha];
      [|by apply list_elem_of_singleton in Ha].
    destruct (Has j a qa Ha) as [? ?]. split; [done|].
    apply elem_of_app. by left.
  - intros j th Hj.
    apply lookup_upd in Hj as [[-> ->]|[Hne Hj]]; simpl.
    + split; [|split].
      * apply elem_of_app. right. left.
      * apply elem_of_app. right. left.
      * intros id q Hin. apply elem_of_app in Hin as [Hin|Hin];
          [by apply (Hnoacq id q)|by apply list_elem_of_singleton in Hin].
    + specialize (Hth j th Hj). specialize (Hser j th Hne Hj).
      assert (forall k, k <> i -> no_enqueue_by k (trace s) ->
                no_enqueue_by k (trace s ++ [(i, EvEnqueue (GPU_QUEUE_ID (globals s)))]))
        as Hne_enq.
      { intros k Hk Hno v Hin. apply elem_of_snoc_enq in Hin as [Hin|[-> _]];
          [by apply (Hno v)|done]. }
      assert (forall k, no_acquire_by k (trace s) ->
                no_acquire_by k (trace s ++ [(i, EvEnqueue (GPU_QUEUE_ID (globals s)))]))
        as Hne_acq.
      { intros k Hno id q Hin. apply elem_of_app in Hin as [Hin|Hin];
          [by apply (Hno id q)|by apply list_elem_of_singleton in Hin]. }
      assert (forall k v, enqueued_by k v (trace s) ->
                enqueued_by k v (trace s ++ [(i, EvEnqueue (GPU_QUEUE_ID (globals s)))]))
        as Henq.
      { intros k v Hin. apply elem_of_app. by left. }
      assert (forall x, x ∈ GPU_QUEUE (globals s) ->
                x ∈ GPU_QUEUE (globals s) ++ [GPU_QUEUE_ID (globals s)]) as Hin_q.
      { intros x Hin. apply elem_of_app. by left. }
      assert (forall x, head (GPU_QUEUE (globals s)) = Some x ->
                head (GPU_QUEUE (globals s) ++ [GPU_QUEUE_ID (globals s)]) = Some x)
        as Hhd.
      { intros x Hx. apply head_app_Some. by left. }
      clear Hmx Hbusy Hlk Hmx' Hlk' Has Hah Ham Hem Heb Heo Hbusy' Hs Hb.
      destruct (at_pc th); simpl in *; try done; naive_solver.
Qed.

Lemma sorted_head_le (q : list Z) (id : Z) :
  StronglySorted Z.lt q -> head q = Some id -> Forall (fun t => id <= t) q.
Proof.
  intros Hs Hh. destruct q as [|h q']; [done|]. injection Hh as ->.
  apply StronglySorted_cons in Hs as [Hlt _].
  constructor; [lia|]. eapply Forall_impl; [exact Hlt|]. simpl. intros; lia.
Qed.

(** Line 146 executed by the call that left the wait loop. *)
Lemma inv_acquire (s : System) (i : nat) (c : CompOutcome) (id : Z) :
  Inv s ->
  threads s !! i = Some (mkThread c (PAcquire id)) ->
  Inv (mkSystem (mkGlobals true (GPU_QUEUE (globals s)) (GPU_QUEUE_ID (globals s)))
                (<[i := mkThread c (PCompute id)]> (threads s))
                (trace s ++ [(i, EvAcquire id (GPU_QUEUE (globals s)))])).
Proof.
  intros HI Hi.
  destruct (mutex_leak_update s i c (PAcquire id) (PCompute id) HI Hi)
    as [Hmx' Hlk']; [by left|done|].
  pose proof (inv_thread s HI i _ Hi) as (Hhd & Hfree & Henq & Hnoacq). simpl in *.
  destruct HI as [Hs Hb Hem Heb Heo Ham Hah Has Hmx Hbusy Hlk Hth].
  assert (forall j v, (j, EvEnqueue v) ∈ trace s ++ [(i, EvAcquire id (GPU_QUEUE (globals s)))]
                      -> (j, EvEnqueue v) ∈ trace s) as Hold.
  { intros j v Hin. apply elem_of_app in Hin as [Hin|Hin]; [done|].
    by apply list_elem_of_singleton in Hin. }
  split; simpl; try done.
  - intros a b j k v w Ha Hb' Hab.
    apply lookup_app_Some in Hb' as [Hb'|[Hlen Hb']];
      [|by apply list_lookup_singleton_Some in Hb' as [_ ?]].
    apply lookup_app_Some in Ha as [Ha|[Hlen' Ha]];
      [|by apply list_lookup_singleton_Some in Ha as [_ ?]].
    eapply Hem; eauto.
  - intros j v Hv. eauto.
  - intros j v w Hv Hw. eauto.
  - intros a b j k v w qv qw Ha Hb' Hab.
    apply lookup_app_Some in Hb' as [Hb'|[Hlen Hb']].
    + apply lookup_app_Some in Ha as [Ha|[Hlen' _]].
      * eapply Ham; eauto.
      * apply lookup_lt_Some in Hb'. lia.
    + apply list_lookup_singleton_Some in Hb' as [Hb0 [= <- <- <-]].
      apply lookup_app_Some in Ha as [Ha|[Hlen' Ha]]; [|lia].
      apply list_elem_of_lookup_2 in Ha.
      pose proof (Hah _ _ _ _ Ha Hhd) as Hle.
      destruct (decide (v = id)) as [->|Hne]; [|lia].
      destruct (Has _ _ _ Ha) as [_ He].
      pose proof (enq_unique _ _ _ _ Hem He Henq) as ->.
      by destruct (Hnoacq id qv).
  - intros j a qa h Ha Hh.
    apply elem_of_app in Ha as [Ha|Ha]; [eauto|].
    apply list_elem_of_singleton in Ha. injection Ha as -> -> ->.
    rewrite Hhd in Hh. injection Hh as ->. lia.
  - intros j a qa Ha.
    apply elem_of_app in Ha as [Ha|Ha].
    + destruct (Has j a qa Ha) as [? ?]. split; [done|].
      apply elem_of_app. by left.
    + apply list_elem_of_singleton in Ha. injection Ha as -> -> ->.
      split; [by apply sorted_head_le|]. apply elem_of_app. by left.
  - split; [|done]. intros _.
    exists i, (mkThread c (PCompute id)). split; [|by left].
    apply list_lookup_insert_eq. by eapply lookup_lt_Some.
  - intros j th Hj.
    apply lookup_upd in Hj as [[-> ->]|[Hne Hj]]; simpl.
    + split; [done|]. apply elem_of_app. by left.
    + specialize (Hth j th Hj).
      assert (in_critical (at_pc th) = true -> False) as Hnc.
      { intros Hc. apply Hne. eapply (Hmx j i); eauto. }
      assert (forall k, k <> i -> no_acquire_by k (trace s) ->
                no_acquire_by k (trace s ++ [(i, EvAcquire id (GPU_QUEUE (globals s)))]))
        as Hne_acq.
      { intros k Hk Hno a q Hin. apply elem_of_app in Hin as [Hin|Hin];
          [by apply (Hno a q)|].
        apply list_elem_of_singleton in Hin. by injection Hin as -> _ _. }
      assert (forall k, no_enqueue_by k (trace s) ->
                no_enqueue_by k (trace s ++ [(i, EvAcquire id (GPU_QUEUE (globals s)))]))
        as Hne_enq.
      { intros k Hno v Hin. apply (Hno v). eauto. }
      assert (forall k v, enqueued_by k v (trace s) ->
                enqueued_by k v (trace s ++ [(i, EvAcquire id (GPU_QUEUE (globals s)))]))
        as Henq'.
      { intros k v Hin. apply elem_of_app. by left. }
      assert (forall k v, (k, EvEnqueue v)
                          ∈ trace s ++ [(i, EvAcquire id (GPU_QUEUE (globals s)))] ->
                          (k, EvEnqueue v) ∈ trace s) as Hold' by exact Hold.
      clear Hold Hmx Hbusy Hlk Hmx' Hlk' Has Hah Ham Hem Heb Heo Hs Hb.
      destruct (at_pc th); simpl in *; try done; try (by exfalso; apply Hnc);
        naive_solver.
Qed.

(** Line 152 executed by the call at the head of the queue (from line
    113 or from line 121). *)
Lemma inv_remove (s : System) (i : nat) (c : CompOutcome) (p p' : pc) (id : Z)
    (q' : list Z) :
  Inv s ->
  threads s !! i = Some (mkThread c p) ->
  GPU_QUEUE (globals s) = id :: q' ->
  enqueued_by i id (trace s) ->
  in_critical p = true ->
  holding p' || leaked p' = holding p || leaked p ->
  leaked p' = false ->
  (forall s', thread_ok s' i c p') ->
  Inv (mkSystem (mkGlobals (GPU_DEVICE_BUSY (globals s)) q' (GPU_QUEUE_ID (globals s)))
                (<[i := mkThread c p']> (threads s)) (trace s)).
Proof.
  intros HI Hi Hq Henq Hcr Hhold Hnl Hok.
  destruct (mutex_leak_update s i c p p' HI Hi) as [Hmx' Hlk'];
    [by left|congruence|].
  pose proof (busy_update s i c p p' HI Hi Hhold) as Hbusy'.
  destruct HI as [Hs Hb Hem Heb Heo Ham Hah Has Hmx Hbusy Hlk Hth].
  rewrite Hq in Hs, Hb.
  apply StronglySorted_cons in Hs as [Hlt Hs'].
  apply Forall_cons in Hb as [Hid Hb'].
  split; simpl; try done.
  - intros j a qa h Ha Hh.
    assert (a <= id) by (eapply Hah; [exact Ha|by rewrite Hq]).
    apply head_Some_elem_of in Hh. rewrite Forall_forall in Hlt.
    specialize (Hlt h Hh). lia.
  - intros j th Hj.
    apply lookup_upd in Hj as [[-> ->]|[Hne Hj]]; simpl; [apply Hok|].
    specialize (Hth j th Hj).
    assert (in_critical (at_pc th) = true -> False) as Hnc.
    { intros Hc. apply Hne. eapply (Hmx j i); eauto. }
    assert (forall v, enqueued_by j v (trace s) -> v ∈ GPU_QUEUE (globals s) -> v ∈ q')
      as Hstay.
    { intros v Hv Hin. rewrite Hq in Hin.
      apply elem_of_cons in Hin as [->|Hin]; [|done].
      exfalso. apply Hne. eapply enq_unique; eauto. }
    assert (forall P, Forall P (GPU_QUEUE (globals s)) -> Forall P q') as Hall.
    { intros P HP. rewrite Hq in HP. by apply Forall_cons in HP as [_ ?]. }
    clear Hmx Hbusy Hlk Hmx' Hlk' Has Hah Ham Hem Heb Heo Hbusy'.
    destruct (at_pc th); simpl in *; try done; try (by exfalso; apply Hnc);
      naive_solver.
Qed.

(** Line 153 executed by the holder, which then returns. *)
Lemma inv_free (s : System) (i : nat) (c : CompOutcome) (p : pc) (out : Output) :
  Inv s ->
  threads s !! i = Some (mkThread c p) ->
  in_critical p = true ->
  Inv (mkSystem (mkGlobals false (GPU_QUEUE (globals s)) (GPU_QUEUE_ID (globals s)))
                (<[i := mkThread c (PDone out fresh_context)]> (threads s)) (trace s)).
Proof.
  intros HI Hi Hcr.
  destruct (mutex_leak_update s i c p (PDone out fresh_context) HI Hi)
    as [Hmx' Hlk']; [done..|].
  destruct HI as [Hs Hb Hem Heb Heo Ham Hah Has Hmx Hbusy Hlk Hth].
  split; simpl; try done.
  - split; [done|]. intros (j & th & Hj & Hh). exfalso.
    apply lookup_upd in Hj as [[-> ->]|[Hne Hj]]; simpl in Hh.
    + by destruct Hh.
    + destruct Hh as [Hh|Hh].
      * apply Hne. eapply (Hmx j i); eauto using holding_critical.
      * eapply (Hlk j i); eauto.
  - intros j th Hj.
    apply lookup_upd in Hj as [[-> ->]|[Hne Hj]]; simpl; [done|].
    specialize (Hth j th Hj).
    assert (in_critical (at_pc th) = true -> False) as Hnc.
    { intros Hc. apply Hne. eapply (Hmx j i); eauto. }
    clear Hmx Hbusy Hlk Hmx' Hlk' Has Hah Ham Hem Heb Heo.
    destruct (at_pc th); simpl in *; try done; try (by exfalso; apply Hnc);
      naive_solver.
Qed.

(** A call that finds the flag clear and its own ticket at the head is
    the only one past the wait loop, and nobody has leaked the lock. *)
Lemma test_passed_alone (s : System) (i : nat) (c : CompOutcome) (p : pc) (id : Z) :
  Inv s ->
  threads s !! i = Some (mkThread c p) ->
  enqueued_by i id (trace s) ->
  head (GPU_QUEUE (globals s)) = Some id ->
  GPU_DEVICE_BUSY (globals s) = false ->
  forall j thj, j <> i -> threads s !! j = Some thj ->
                in_critical (at_pc thj) = false /\ leaked (at_pc thj) = false.
Proof.
  intros HI Hi Henq Hhd Hfree j thj Hne Hj.
  assert (holding (at_pc thj) = true \/ leaked (at_pc thj) = true -> False) as Hnb.
  { intros Hh. assert (GPU_DEVICE_BUSY (globals s) = true); [|congruence].
    apply (inv_busy s HI). eauto. }
  pose proof (inv_thread s HI j thj Hj) as Hok.
  split.
  - destruct (at_pc thj) eqn:E; simpl in *; try done;
      try (exfalso; apply Hnb; left; tauto).
    destruct Hok as (Hhd' & _ & Henq' & _).
    rewrite Hhd in Hhd'. injection Hhd' as <-.
    exfalso. apply Hne. eapply enq_unique; eauto using inv_enq_mono.
  - destruct (leaked (at_pc thj)) eqn:E; [|done]. exfalso; apply Hnb; by right.
Qed.

Lemma step_others_not_enqueuing (s : System) (i : nat) (c : CompOutcome) (p' : pc)
    (g' : Globals) (tr' : list (nat * Event)) :
  enq_serial (mkSystem g' (<[i := mkThread c p']> (threads s)) tr') = true ->
  (i < length (threads s))%nat ->
  in_enqueue p' = true ->
  forall j th, j <> i -> threads s !! j = Some th -> in_enqueue (at_pc th) = false.
Proof.
  intros Hser Hlen Hp' j th Hne Hj.
  destruct (in_enqueue (at_pc th)) eqn:E; [|done].
  exfalso. apply Hne. unfold enq_serial in Hser. simpl in Hser.
  eapply (serial_other _ j i th (mkThread c p') Hser); [|by apply list_lookup_insert_eq|..];
    [by rewrite list_lookup_insert_ne|done..].
Qed.

(** Every statement of every worker keeps the invariant, as long as
    ticket issue stays serialised. *)
Lemma inv_step (s : System) (i : nat) :
  Inv s -> enq_serial (sys_step s i) = true -> Inv (sys_step s i).
Proof.
  intros HI Hser. unfold sys_step in *.
  destruct (threads s !! i) as [[c p]|] eqn:Hi; [|done]. simpl in *.
  pose proof (inv_thread s HI i _ Hi) as Hme. simpl in Hme.
  pose proof (lookup_lt_Some _ _ _ Hi) as Hlen.
  destruct p; simpl in *.
  - (* line 132 *)
    rewrite app_nil_r in *. apply inv_incr; [done..|].
    eapply step_others_not_enqueuing; eauto.
  - (* line 133 *)
    apply inv_append; [done..|].
    eapply step_others_not_enqueuing; eauto.
  - (* line 135 *)
    rewrite app_nil_r. destruct Hme as (Hq & Henq & Hna).
    apply (inv_silent s i c PEnqReturn); done.
  - (* line 56 *)
    destruct Hme as (Hq & Henq & Hna).
    unfold loop_test.
    cbv [mbind M_bind bind get mret M_ret ret raise queue_head].
    destruct (GPU_DEVICE_BUSY (globals s)) eqn:Hb.
    + simpl. rewrite app_nil_r. apply (inv_silent s i c (PTest gpu_queue_id count)); done.
    + destruct (GPU_QUEUE (globals s)) as [|h q'] eqn:Eq;
        [by apply elem_of_nil in Hq|].
      destruct (Z.eqb_spec h gpu_queue_id) as [->|Hne]; simpl; rewrite app_nil_r.
      * apply (inv_silent s i c (PTest gpu_queue_id count)); try done.
        -- simpl. by rewrite Eq.
        -- intros _. right.
           eapply test_passed_alone; eauto. by rewrite Eq.
      * apply (inv_silent s i c (PTest gpu_queue_id count)); try done.
        simpl. by rewrite Eq.
  - (* lines 57-64 *)
    destruct Hme as (Hq & Henq & Hna).
    unfold loop_body.
    cbv [mbind M_bind bind get mret M_ret ret raise queue_head].
    assert (GPU_QUEUE (globals s) <> []) as Hne.
    { intros E. rewrite E in Hq. by apply elem_of_nil in Hq. }
    destruct (Z.eqb (count mod 60) 0).
    + destruct (GPU_QUEUE (globals s)) as [|h q'] eqn:Eq; [done|].
      simpl. rewrite app_nil_r.
      apply (inv_silent s i c (PBody gpu_queue_id count)); try done.
      simpl. by rewrite Eq.
    + simpl. rewrite app_nil_r.
      apply (inv_silent s i c (PBody gpu_queue_id count)); done.
  - (* line 67 *)
    by apply inv_acquire.
  - (* lines 70-110 *)
    rewrite app_nil_r. destruct Hme as (Hhd & Henq).
    destruct (compute_section_cases c gpu_queue_id)
      as [[Hf ->]|[(Hf & Hs & e & He & ->)|(out & Hf & Hs & ->)]].
    + destruct c as [|r]; [done|].
      apply (inv_silent s i _ (PCompute gpu_queue_id)); try done.
      intros _. exact Hf.
    + apply (inv_silent s i c (PCompute gpu_queue_id)); try done.
      intros _. by left.
    + apply (inv_silent s i c (PCompute gpu_queue_id)); try done.
      intros _. by left.
  - (* line 113 *)
    destruct Hme as (Hhd & Henq).
    unfold remove_from_queue.
    cbv [mbind M_bind bind get put mret M_ret ret raise].
    destruct (GPU_QUEUE (globals s)) as [|h q'] eqn:Eq; [done|].
    injection Hhd as ->. rewrite list_remove_head. simpl. rewrite app_nil_r.
    eapply (inv_remove s i c (PRelRemove gpu_queue_id out)); eauto; done.
  - (* line 153, then 114 *)
    rewrite app_nil_r. eapply (inv_free s i c (PRelFree gpu_queue_id out)); eauto.
  - (* lines 119-120 *)
    destruct Hme as (Hhd & Henq & ->).
    cbv [mbind M_bind bind get put mret M_ret ret raise queue_head].
    destruct (GPU_QUEUE (globals s)) as [|h q'] eqn:Eq; [done|].
    injection Hhd as ->. rewrite Z.eqb_refl. simpl. rewrite app_nil_r.
    apply (inv_silent s i c (PHandler gpu_queue_id e true)); try done.
    + simpl. by rewrite Eq.
    + intros _. by left.
  - (* line 121 *)
    destruct Hme as (Hhd & Henq & ->).
    unfold remove_from_queue.
    cbv [mbind M_bind bind get put mret M_ret ret raise].
    destruct (GPU_QUEUE (globals s)) as [|h q'] eqn:Eq; [done|].
    injection Hhd as ->. rewrite list_remove_head. simpl. rewrite app_nil_r.
    eapply (inv_remove s i c (PHRelRemove gpu_queue_id true)); eauto; done.
  - (* line 153, then 124 *)
    rewrite app_nil_r. eapply (inv_free s i c (PHRelFree gpu_queue_id acquired)); eauto.
  - done.
  - rewrite app_nil_r, list_insert_id by done. by destruct s.
  - done.
Qed.

Lemma init_threads_lookup (calls : list CompOutcome) (i : nat) (th : Thread) :
  map (fun c => mkThread c PEnqIncr) calls !! i = Some th -> at_pc th = PEnqIncr.
Proof.
  revert i. induction calls as [|c calls IH]; intros [|i]; simpl; try done.
  - by intros [= <-].
  - apply IH.
Qed.

Lemma inv_init (calls : list CompOutcome) : Inv (init_system calls).
Proof.
  split; simpl.
  - constructor.
  - constructor.
  - intros a b i j v w Ha. by rewrite lookup_nil in Ha.
  - intros i v Hv. by apply elem_of_nil in Hv.
  - intros i v w Hv. by apply elem_of_nil in Hv.
  - intros a b i j v w qv qw Ha. by rewrite lookup_nil in Ha.
  - intros i a qa h Ha. by apply elem_of_nil in Ha.
  - intros i a qa Ha. by apply elem_of_nil in Ha.
  - intros i j thi thj Hi _ Hc. apply init_threads_lookup in Hi.
    by rewrite Hi in Hc.
  - split; [done|]. intros (i & th & Hi & Hh).
    apply init_threads_lookup in Hi. rewrite Hi in Hh. by destruct Hh.
  - intros i j thi thj Hi _ Hl. apply init_threads_lookup in Hi.
    by rewrite Hi in Hl.
  - intros i th Hi. rewrite (init_threads_lookup _ _ _ Hi). simpl.
    split; intros ? ; [|intros ?]; apply not_elem_of_nil.
Qed.

Lemma inv_exec (sched : list nat) (s : System) :
  Inv s -> serialised sched s = true -> Inv (exec sched s).
Proof.
  revert s. induction sched as [|i rest IH]; intros s HI Hser; [done|].
  simpl in Hser. apply andb_true_iff in Hser as [Hstep Hrest].
  simpl. apply IH; [|done]. by apply inv_step.
Qed.

Lemma find_pos_lookup (P : nat * Event -> bool) (tr : list (nat * Event)) (a : nat) :
  find_pos P tr = Some a -> exists x, tr !! a = Some x /\ P x = true.
Proof.
  revert a. induction tr as [|y tr IH]; intros a; simpl; [done|].
  destruct (P y) eqn:E.
  - intros [= <-]. eauto.
  - destruct (find_pos P tr) as [k|]; simpl; [|done].
    intros [= <-]. destruct (IH k eq_refl) as (x & Hx & HP). eauto.
Qed.

Lemma is_enqueue_of_inv (i : nat) (x : nat * Event) :
  is_enqueue_of i x = true -> exists v, x = (i, EvEnqueue v).
Proof.
  destruct x as [j [v|id q]]; simpl; [|done].
  intros H. apply Nat.eqb_eq in H as ->. eauto.
Qed.

Lemma is_acquire_of_inv (i : nat) (x : nat * Event) :
  is_acquire_of i x = true -> exists id q, x = (i, EvAcquire id q).
Proof.
  destruct x as [j [v|id q]]; simpl; [done|].
  intros H. apply Nat.eqb_eq in H as ->. eauto.
Qed.

Lemma inv_fifo (s : System) : Inv s -> fifo (trace s).
Proof.
  intros HI. split.
  - intros i j a b c d Ha Hb Hab Hc Hd.
    apply find_pos_lookup in Ha as (xa & Ha & Pa).
    apply find_pos_lookup in Hb as (xb & Hb & Pb).
    apply find_pos_lookup in Hc as (xc & Hc & Pc).
    apply find_pos_lookup in Hd as (xd & Hd & Pd).
    apply is_enqueue_of_inv in Pa as [v ->].
    apply is_enqueue_of_inv in Pb as [w ->].
    apply is_acquire_of_inv in Pc as (idi & qi & ->).
    apply is_acquire_of_inv in Pd as (idj & qj & ->).
    pose proof (inv_enq_mono s HI _ _ _ _ _ _ Ha Hb Hab) as Hvw.
    destruct (inv_acq_snap s HI i idi qi) as [_ Hei];
      [by eapply list_elem_of_lookup_2|].
    destruct (inv_acq_snap s HI j idj qj) as [_ Hej];
      [by eapply list_elem_of_lookup_2|].
    assert (idi = v) as ->.
    { eapply (inv_enq_once s HI i); [done|]. by eapply list_elem_of_lookup_2. }
    assert (idj = w) as ->.
    { eapply (inv_enq_once s HI j); [done|]. by eapply list_elem_of_lookup_2. }
    destruct (lt_eq_lt_dec c d) as [[Hlt|Heq]|Hgt]; [done| |].
    + subst d. rewrite Hc in Hd. injection Hd as _ ? _. lia.
    + pose proof (inv_acq_mono s HI _ _ _ _ _ _ _ _ Hd Hc Hgt). lia.
  - intros i id q Hin. by destruct (inv_acq_snap s HI i id q Hin).
Qed.




(** *** Serialised ticket issue *)

(** With ticket issue serialised (no two workers inside
    [get_gpu_queue_id] at once) and every other statement interleaved
    freely, acquisitions follow enqueue order and no call acquires while
    a smaller ticket is queued. *)
Theorem serialised_calls_fifo (calls : list CompOutcome) (sched : list nat) :
  serialised sched (init_system calls) = true ->
  fifo (trace (exec sched (init_system calls))).
Proof.
  intros Hser. apply inv_fifo, inv_exec; [apply inv_init|done].
Qed.

Lemma serialised_calls_fifo_witness :
  serialised fair_schedule (init_system [good_call; good_call]) = true /\
  fifo (trace (exec fair_schedule (init_system [good_call; good_call]))).
Proof.
  split; [vm_compute; reflexivity|].
  apply (serialised_calls_fifo [good_call; good_call] fair_schedule).
  vm_compute; reflexivity.
Defined.





(** With ticket issue serialised, the wait queue is always strictly
    increasing (so no ticket occurs twice) and bounded by the counter. *)
Theorem serialised_queue_sorted (calls : list CompOutcome) (sched : list nat) :
  serialised sched (init_system calls) = true ->
  let g := globals (exec sched (init_system calls)) in
  StronglySorted Z.lt (GPU_QUEUE g) /\
  Forall (fun t => t <= GPU_QUEUE_ID g) (GPU_QUEUE g).
Proof.
  intros Hser g.
  pose proof (inv_exec sched _ (inv_init calls) Hser) as HI.
  split; [apply (inv_sorted _ HI)|apply (inv_bound _ HI)].
Qed.

Lemma serialised_queue_sorted_witness :
  let g := globals (exec [0; 0; 0; 1; 1; 1]%nat (init_system [good_call; good_call])) in
  StronglySorted Z.lt (GPU_QUEUE g) /\
  Forall (fun t => t <= GPU_QUEUE_ID g) (GPU_QUEUE g).
Proof.
  apply (serialised_queue_sorted [good_call; good_call] [0; 0; 0; 1; 1; 1]%nat).
  vm_compute; reflexivity.
Defined.



(** *** One call on an idle service *)

Lemma remove_head_eq (id : Z) (q : list Z) (b : bool) (n : Z) :
  remove_from_queue id (mkGlobals b (id :: q) n) = (Ret tt, mkGlobals b q n).
Proof.
  unfold remove_from_queue.
  cbv [mbind M_bind bind get put mret M_ret ret raise]. simpl.
  by rewrite Z.eqb_refl.
Qed.

Lemma queue_head_eq (h : Z) (q : list Z) (b : bool) (n : Z) :
  queue_head (mkGlobals b (h :: q) n) = (Ret h, mkGlobals b (h :: q) n).
Proof. reflexivity. Qed.

Lemma forecast_to_compute (c : CompOutcome) (g : Globals) :
  GPU_DEVICE_BUSY g = false -> GPU_QUEUE g = [] ->
  run_call 5 c PEnqIncr g =
  (PCompute (GPU_QUEUE_ID g + 1),
   mkGlobals true [GPU_QUEUE_ID g + 1] (GPU_QUEUE_ID g + 1)).
Proof.
  intros Hb Hq. destruct g as [b q i]. simpl in Hb, Hq. subst b q. simpl.
  cbv [mbind M_bind bind get put mret M_ret ret raise queue_head loop_test]. simpl.
  by rewrite Z.eqb_refl.
Qed.



(** Served on idle globals, a call whose computation section raises (or
    whose response lacks one of the three keys) is answered by the
    handler with [("Fail", "Fail", -1)], and the handler releases the
    lock: the service is idle again. *)
Theorem forecast_exception_alone (c : CompOutcome) (g : Globals) :
  response_fails c = false -> success_output c = None ->
  GPU_DEVICE_BUSY g = false -> GPU_QUEUE g = [] ->
  forecast 9 c g =
  (PDone Output_fail fresh_context, mkGlobals false [] (GPU_QUEUE_ID g + 1)).
Proof.
  intros Hf Hs Hb Hq. unfold forecast.
  change 9%nat with (5 + 4)%nat. rewrite run_call_app, forecast_to_compute by done.
  simpl fst; simpl snd. cbn [run_call forecast_step].
  destruct (compute_section_cases c (GPU_QUEUE_ID g + 1))
    as [[Hf' _]|[(_ & _ & e & _ & ->)|(out' & _ & Hs' & _)]]; [congruence| |congruence].
  cbn [forecast_step]. rewrite queue_head_eq, Z.eqb_refl. cbn [forecast_step].
  rewrite remove_head_eq. reflexivity.
Qed.

Lemma forecast_exception_alone_witness :
  forecast 9 CompRaises initial_globals =
  (PDone Output_fail fresh_context,
   mkGlobals false [] (GPU_QUEUE_ID initial_globals + 1)).
Proof.
  apply (forecast_exception_alone CompRaises initial_globals); reflexivity.
Defined.

(** *** A service whose flag is stuck *)

Lemma still_waiting_step (c : CompOutcome) (p : pc) (g : Globals) :
  GPU_DEVICE_BUSY g = true -> still_waiting p g ->
  GPU_DEVICE_BUSY (forecast_step c p g).2 = true /\
  still_waiting (forecast_step c p g).1.1 (forecast_step c p g).2.
Proof.
  intros Hb Hw. destruct p; simpl in Hw; try done.
  - simpl. split; [done|]. by destruct (GPU_QUEUE g).
  - by rewrite step_test_busy.
  - by rewrite step_body.
Qed.

(** While nobody clears the flag, a call served on its own never
    returns and never raises: it stays in the wait loop for any number
    of statements, and the flag stays set. *)
Theorem busy_service_never_answers (n : nat) (c : CompOutcome) (g : Globals) :
  GPU_DEVICE_BUSY g = true ->
  ended (forecast n c g).1 = false /\
  GPU_DEVICE_BUSY (forecast n c g).2 = true.
Proof.
  intros Hb. unfold forecast.
  assert (forall p g0, GPU_DEVICE_BUSY g0 = true -> still_waiting p g0 ->
            GPU_DEVICE_BUSY (run_call n c p g0).2 = true /\
            still_waiting (run_call n c p g0).1 (run_call n c p g0).2) as Hrun.
  { induction n as [|k IH]; intros p g0 Hb0 Hw; [done|].
    simpl. destruct (still_waiting_step c p g0 Hb0 Hw) as [Hb1 Hw1].
    destruct (forecast_step c p g0) as [[p' ev] g']. simpl in *. by apply IH. }
  destruct (Hrun PEnqIncr g Hb I) as [Hb' Hw'].
  split; [|done]. by destruct (run_call n c PEnqIncr g).1.
Qed.

Lemma busy_service_never_answers_witness :
  ended (forecast 5000 good_call held_by_0).1 = false /\
  GPU_DEVICE_BUSY (forecast 5000 good_call held_by_0).2 = true.
Proof.
  apply (busy_service_never_answers 5000 good_call held_by_0). reflexivity.
Defined.

(** *** The helper functions at their edges *)

Lemma list_remove_split (x : Z) (l : list Z) :
  (x ∉ l /\ list_remove x l = None) \/
  (exists l1 l2, l = l1 ++ x :: l2 /\ x ∉ l1 /\ list_remove x l = Some (l1 ++ l2)).
Proof.
  induction l as [|y l IH].
  - left. split; [apply not_elem_of_nil|done].
  - simpl. destruct (Z.eqb_spec x y) as [->|Hne].
    + right. exists [], l. split; [done|]. split; [apply not_elem_of_nil|done].
    + destruct IH as [[Hout ->]|(l1 & l2 & -> & Hout & ->)].
      * left. split; [|done]. apply not_elem_of_cons. done.
      * right. exists (y :: l1), l2. split; [done|].
        split; [|done]. apply not_elem_of_cons. done.
Qed.

(** [remove_from_queue] either finds no such ticket, raises
    [ValueError] and changes nothing, or drops exactly the first
    occurrence of the ticket and keeps everything else in order. *)
Theorem remove_from_queue_first (id : Z) (g : Globals) :
  (id ∉ GPU_QUEUE g /\ remove_from_queue id g = (Exc ValueError, g)) \/
  (exists l1 l2,
     GPU_QUEUE g = l1 ++ id :: l2 /\ id ∉ l1 /\
     remove_from_queue id g =
     (Ret tt, mkGlobals (GPU_DEVICE_BUSY g) (l1 ++ l2) (GPU_QUEUE_ID g))).
Proof.
  unfold remove_from_queue.
  cbv [mbind M_bind bind get put mret M_ret ret raise].
  destruct (list_remove_split id (GPU_QUEUE g))
    as [[Hout ->]|(l1 & l2 & Hq & Hout & ->)].
  - by left.
  - right. exists l1, l2. done.
Qed.

(** [release_gpu] for a ticket that is not in the queue raises
    [ValueError] before line 153 is reached: the globals are unchanged,
    in particular a set flag stays set. *)
Theorem release_gpu_absent (id : Z) (g : Globals) :
  id ∉ GPU_QUEUE g -> release_gpu id g = (Exc ValueError, g).
Proof.
  intros Hout. unfold release_gpu, remove_from_queue.
  cbv [mbind M_bind bind get put mret M_ret ret raise].
  by rewrite (list_remove_absent _ _ Hout).
Qed.

Lemma release_gpu_absent_witness :
  release_gpu 7 held_by_0 = (Exc ValueError, held_by_0).
Proof.
  apply (release_gpu_absent 7 held_by_0). simpl.
  apply not_elem_of_cons. split; [done|apply not_elem_of_nil].
Defined.

(** Taking a ticket and removing it again restores the queue, provided
    the new identifier was not queued already; only the counter keeps
    the advance. *)
Theorem enqueue_then_remove (g : Globals) :
  GPU_QUEUE_ID g + 1 ∉ GPU_QUEUE g ->
  (id ← get_gpu_queue_id; remove_from_queue id) g =
  (Ret tt, mkGlobals (GPU_DEVICE_BUSY g) (GPU_QUEUE g) (GPU_QUEUE_ID g + 1)).
Proof.
  intros Hout.
  change ((id ← get_gpu_queue_id; remove_from_queue id) g)
    with (match get_gpu_queue_id g with
          | (Ret id, g') => remove_from_queue id g'
          | (Exc e, g') => (Exc e, g')
          end).
  rewrite get_gpu_queue_id_eq.
  destruct (remove_from_queue_first (GPU_QUEUE_ID g + 1)
              (mkGlobals (GPU_DEVICE_BUSY g) (GPU_QUEUE g ++ [GPU_QUEUE_ID g + 1])
                         (GPU_QUEUE_ID g + 1)))
    as [[Habs _]|(l1 & l2 & Hq & Hl1 & ->)]; simpl in *.
  - exfalso. apply Habs. apply elem_of_app. right. left.
  - f_equal. f_equal.
    assert (l2 = [] /\ l1 = GPU_QUEUE g) as [-> ->]; [|by rewrite app_nil_r].
    destruct l2 as [|z l2 _] using rev_ind.
    + apply app_inj_tail in Hq as [-> _]. done.
    + exfalso. rewrite app_comm_cons, app_assoc in Hq.
      apply app_inj_tail in Hq as [Hq _]. apply Hout. rewrite Hq.
      apply elem_of_app. right. left.
Qed.

Lemma enqueue_then_remove_witness :
  (id ← get_gpu_queue_id; remove_from_queue id) held_by_0 =
  (Ret tt, mkGlobals (GPU_DEVICE_BUSY held_by_0) (GPU_QUEUE held_by_0)
                     (GPU_QUEUE_ID held_by_0 + 1)).
Proof.
  apply (enqueue_then_remove held_by_0). simpl.
  apply not_elem_of_cons. split; [done|apply not_elem_of_nil].
Defined.

(** *** The except handler and the failure branch *)

(** The handler (lines 118-126) from any globals.  On an empty queue
    the head test itself raises [IndexError], which leaves [forecast].
    If the call's ticket is at the head, [release_gpu] removes it and
    clears the flag, whether or not the call had acquired.  Otherwise
    the ticket is removed and the flag is left alone; if it is not in
    the queue either, [ValueError] leaves [forecast] and nothing
    changes. *)
Theorem handler_cleanup (c : CompOutcome) (id : Z) (e : exn) (acq : bool)
    (g : Globals) :
  run_call 3 c (PHandler id e acq) g =
  match GPU_QUEUE g with
  | [] => (PCrash IndexError, g)
  | h :: q' =>
      if Z.eqb h id
      then (PDone Output_fail fresh_context, mkGlobals false q' (GPU_QUEUE_ID g))
      else match list_remove id q' with
           | Some r =>
               (PDone Output_fail fresh_context,
                mkGlobals (GPU_DEVICE_BUSY g) (h :: r) (GPU_QUEUE_ID g))
           | None => (PCrash ValueError, g)
           end
  end.
Proof.
  destruct g as [b q n]. destruct q as [|h q']; [reflexivity|].
  cbn [run_call forecast_step GPU_QUEUE GPU_QUEUE_ID GPU_DEVICE_BUSY].
  rewrite queue_head_eq.
  destruct (Z.eqb_spec h id) as [->|Hne].
  - rewrite Z.eqb_refl. cbn [forecast_step]. rewrite remove_head_eq. reflexivity.
  - assert (Z.eqb id h = false) as Hne' by (apply Z.eqb_neq; congruence).
    rewrite Hne'. cbn [forecast_step]. unfold remove_from_queue.
    cbv [mbind M_bind bind get put mret M_ret ret raise]. simpl.
    rewrite Hne'. destruct (list_remove id q'); reflexivity.
Qed.


